(** * YSE sound engine: the patcher's router object and patch graph

    The router ([gRoute], src/YseEngine/patcher/genericObjects/gRoute.cpp)
    is embedded from its source.  The patch graph behind the public
    interface of src/YseEngine/patcher/patcher.hpp has only its declarations
    in the source tree; its operations are modelled from the specification
    and marked as such. *)

From Stdlib Require Import ZArith String Ascii DecimalString DecimalZ Lia.
From Stdlib Require Import DecimalPos Permutation.
From stdpp Require Import base list strings.
From Equations Require Import Equations.

Open Scope string_scope.

(** ** Numbers

    An [int] is its value in [Z].  A [float] is the value its bits denote:
    a signed zero, a signed infinity, a NaN with its sign and payload, or
    the finite number (-1)^sign * m * 2^e. *)
Inductive float :=
  | FZero (sign : bool)
  | FInfinity (sign : bool)
  | FNaN (sign : bool) (payload : positive)
  | FFinite (sign : bool) (m : positive) (e : Z).

(** ** [std::to_string]

    The handlers call the overloaded [std::to_string(value)] on an [int] and
    on a [float].  The overload set is a class; the [int] overload is the
    decimal rendering of [%d]; the [float] overload is the C++ library's and
    stays a parameter of the router. *)

Class ToString (A : Type) := to_string : A -> string.

#[global] Instance to_string_int : ToString Z :=
  fun value => NilZero.string_of_int (Z.to_int value).

Module gRoute.

(** Modelled from the spec: the outlet class is not in the source tree.  An
    outlet fans out to zero or more inlets through its connections, each one
    naming the target object and the inlet index. *)
Record outlet := Outlet { connections : list (nat * nat) }.

(** The members the router's code touches: the parameter [list] (registered
    by [ADD_PARAM(list)], here [list_] since [list] is the type) and the
    [outputs] vector. *)
Record t := Build { list_ : list string; outputs : list outlet }.

(** Modelled from the spec: the macro [ADD_OUT_ANY] is not in the source
    tree; it appends one new outlet, with no connection, to [outputs]. *)
Definition ADD_OUT_ANY (r : t) : t :=
  Build (list_ r) (outputs r ++ [Outlet []]).

(** [PARM_CLEAR() { outputs.clear(); }] *)
Definition PARM_CLEAR (r : t) : t := Build (list_ r) [].

(** [PARM_PARSE() { while (outputs.size() < list.size() + 1) ADD_OUT_ANY; }] *)
Equations PARM_PARSE (r : t) : t
  by wf (length (list_ r) + 1 - length (outputs r)) lt :=
  PARM_PARSE r with decide (length (outputs r) < length (list_ r) + 1) := {
    | left _ => PARM_PARSE (ADD_OUT_ANY r)
    | right _ => r }.
Next Obligation.
  cbn. rewrite length_app. cbn. lia.
Qed.

(** What a handler does on the outlets: [outputs[i].SendInt(value)] is the
    event [SendInt i value].  What the outlet then does with the message is
    the outlet class's business. *)
Inductive event :=
  | SendBang (i : nat)
  | SendInt (i : nat) (value : Z)
  | SendFloat (i : nat) (value : float)
  | SendList (i : nat) (value : string).

(** A handler run either performs its sends or reaches an access outside the
    [outputs] vector ([outputs[i]] with [i >= outputs.size()], or
    [outputs.back()] on an empty vector), which C++ leaves undefined. *)
Inductive outcome :=
  | Sent (trace : list event)
  | OutOfRange.

(** [outputs[i].Send...(...); return;] *)
Definition send_at (r : t) (i : nat) (send : nat -> event) : outcome :=
  match outputs r !! i with
  | Some _ => Sent [send i]
  | None => OutOfRange
  end.

(** [outputs.back().Send...(...);] *)
Definition send_back (r : t) (send : nat -> event) : outcome :=
  match last (outputs r) with
  | Some _ => Sent [send (length (outputs r) - 1)]
  | None => OutOfRange
  end.

(** The loop the four handlers share, from index [i] on, [todo] bounding the
    iterations left:
    [for (int i = 0; i < list.size(); i++) {
       if (list[i].compare(s) == 0) { outputs[i].Send...; return; } }
     outputs.back().Send...;]
    The counter is a C++ [int]; the model counts in [nat], which agrees with
    it on every parameter list of fewer than 2^31 tokens. *)
Fixpoint route_from (r : t) (s : string) (send : nat -> event)
    (todo i : nat) : outcome :=
  match todo with
  | 0 => send_back r send
  | S todo' =>
      match list_ r !! i with
      | None => send_back r send
      | Some item =>
          match String.compare item s with
          | Eq => send_at r i send
          | _ => route_from r s send todo' (S i)
          end
      end
  end.

Definition route (r : t) (s : string) (send : nat -> event) : outcome :=
  route_from r s send (length (list_ r)) 0.

(** [BANG_IN(SetBangValue)] *)
Definition SetBangValue (r : t) : outcome :=
  route r "bang" SendBang.

(** [INT_IN(SetIntValue)]: [std::string s = std::to_string(value);] *)
Definition SetIntValue (r : t) (value : Z) : outcome :=
  let s := to_string value in
  route r s (fun i => SendInt i value).

(** The token [SetListValue] compares, "string until first space":
    [if ((pos = value.find(" ")) != npos) token = value.substr(0, pos);
     else token = value;] *)
Definition first_item (value : string) : string :=
  match String.index 0 " " value with
  | Some pos => String.substring 0 pos value
  | None => value
  end.

(** [LIST_IN(SetListValue)] *)
Definition SetListValue (r : t) (value : string) : outcome :=
  let token := first_item value in
  route r token (fun i => SendList i value).

Section FloatIn.
Context {to_string_float : ToString float}.

(** [FLOAT_IN(SetFloatValue)]: [std::string s = std::to_string(value);] *)
Definition SetFloatValue (r : t) (value : float) : outcome :=
  let s := to_string value in
  route r s (fun i => SendFloat i value).
End FloatIn.

(** The messages an inlet can receive, and the handler each kind runs. *)
Inductive message :=
  | Bang
  | Int (value : Z)
  | Float (value : float)
  | List (value : string).

Definition handle `{ToString float} (r : t) (m : message) : outcome :=
  match m with
  | Bang => SetBangValue r
  | Int value => SetIntValue r value
  | Float value => SetFloatValue r value
  | List value => SetListValue r value
  end.

(** The string each handler compares, the send it performs on the outlet it
    picks, and the outlet an event is on. *)
Definition compared `{ToString float} (m : message) : string :=
  match m with
  | Bang => "bang"
  | Int value => to_string value
  | Float value => to_string value
  | List value => first_item value
  end.

Definition forward (m : message) (i : nat) : event :=
  match m with
  | Bang => SendBang i
  | Int value => SendInt i value
  | Float value => SendFloat i value
  | List value => SendList i value
  end.

Definition outlet_of (e : event) : nat :=
  match e with
  | SendBang i | SendInt i _ | SendFloat i _ | SendList i _ => i
  end.

Fixpoint has_space (s : string) : bool :=
  match s with
  | EmptyString => false
  | String c rest => Ascii.eqb c " " || has_space rest
  end.

(** *** The routing rules in the specification's words

    "First-match-wins, exact string equality": [i] is the earliest index of
    [T] holding [s]. *)
Definition first_match (T : list string) (s : string) (i : nat) : Prop :=
  T !! i = Some s /\ forall j, j < i -> T !! j <> Some s.

(** "String until first space": the payload up to its first space. *)
Fixpoint until_space (value : string) : string :=
  match value with
  | EmptyString => EmptyString
  | String c rest =>
      if Ascii.eqb c " " then EmptyString else String c (until_space rest)
  end.

(** *** The statement of the list rule in the specification's words

    "Extract only the first whitespace-delimited token": the payload up to
    its first whitespace character, whitespace being what C's [isspace]
    accepts (space, tab, line feed, vertical tab, form feed, carriage
    return). *)
Definition is_whitespace (c : ascii) : bool :=
  let n := nat_of_ascii c in
  Nat.eqb n 32 || (Nat.leb 9 n && Nat.leb n 13).

Fixpoint spec_first_token (value : string) : string :=
  match value with
  | EmptyString => EmptyString
  | String c rest =>
      if is_whitespace c then EmptyString else String c (spec_first_token rest)
  end.

(** The outlet the specification's rules name for a compared string: the
    earliest index whose token equals it, else the catch-all index [N]. *)
Fixpoint spec_outlet_from (T : list string) (s : string) (i : nat) : nat :=
  match T with
  | [] => i
  | item :: T' => if String.eqb item s then i else spec_outlet_from T' s (S i)
  end.

Definition spec_outlet (T : list string) (s : string) : nat :=
  spec_outlet_from T s 0.

(** *** A rendering for [std::to_string(float)]

    [std::to_string(float)] is specified as what [sprintf] prints for [%f]:
    fixed notation, six decimals, the value rounded to them (here: to
    nearest, ties to even).  [fixed6] computes it on the exact value
    [m * 2^e] of the float. *)
Definition pad6 (digits : string) : string :=
  Nat.iter (6 - String.length digits) (String "0") digits.

Definition fixed6_magnitude (m : positive) (e : Z) : string :=
  let num := (Z.pos m * 10 ^ 6 * 2 ^ Z.max e 0)%Z in
  let den := (2 ^ Z.max (- e) 0)%Z in
  let q := (num / den)%Z in
  let rem := (num mod den)%Z in
  let up := (den <? 2 * rem)%Z || ((den =? 2 * rem)%Z && Z.odd q) in
  let scaled := if up then (q + 1)%Z else q in
  to_string (scaled / 10 ^ 6)%Z ++ "." ++ pad6 (to_string (scaled mod 10 ^ 6)%Z).

Definition fixed6 : ToString float :=
  fun value =>
    match value with
    | FZero s => (if s then "-" else "") ++ "0.000000"
    | FInfinity s => (if s then "-" else "") ++ "inf"
    | FNaN s _ => (if s then "-" else "") ++ "nan"
    | FFinite s m e => (if s then "-" else "") ++ fixed6_magnitude m e
    end.

(** *** The parameter protocol around the two hooks *)

Section Parameters.
(** The argument grammar: the raw argument string parsed into the tokens
    of [list], or not at all when it is malformed.  The parser is the
    object framework's and is not in the source tree. *)
Variable parse_args : string -> option (list string).

Inductive error := ParameterParseError.

(** Modelled from the spec: ParameterClear is the hook [PARM_CLEAR]
    registered by [REG_PARM_CLEAR], "invoked before re-parsing
    parameters". *)
Definition ParameterClear (r : t) : t := PARM_CLEAR r.

(** Modelled from the spec: ParameterParse "parses a type-specific argument
    grammar into the parameter set, then grows derived ports" (the hook
    [PARM_PARSE]); "parsing malformed parameter syntax fails with
    ParameterParseError". *)
Definition ParameterParse (rawArgs : string) (r : t) : t + error :=
  match parse_args rawArgs with
  | Some T => inl (PARM_PARSE (Build T (outputs r)))
  | None => inr ParameterParseError
  end.

(** Modelled from the spec: a re-parse clears, then parses; a failed parse
    leaves what the clear left. *)
Definition reparse (rawArgs : string) (r : t) : t * option error :=
  let cleared := ParameterClear r in
  match ParameterParse rawArgs cleared with
  | inl r' => (r', None)
  | inr e => (cleared, Some e)
  end.
End Parameters.

(** *** A sample argument grammar

    "Whitespace/comma-delimited tokens": the tokens are the maximal runs
    without a space or a comma; an argument string holding a control
    character is taken as malformed. *)
Definition is_delimiter (c : ascii) : bool :=
  Ascii.eqb c " " || Ascii.eqb c ",".

Definition is_control (c : ascii) : bool :=
  Nat.ltb (nat_of_ascii c) 32.

Fixpoint has_control (s : string) : bool :=
  match s with
  | EmptyString => false
  | String c rest => is_control c || has_control rest
  end.

Fixpoint tokens_from (s current : string) : list string :=
  match s with
  | EmptyString => if String.eqb current "" then [] else [current]
  | String c rest =>
      if is_delimiter c then
        if String.eqb current "" then tokens_from rest ""
        else current :: tokens_from rest ""
      else tokens_from rest (current ++ String c "")
  end.

Definition sample_parse_args (rawArgs : string) : option (list string) :=
  if has_control rawArgs then None else Some (tokens_from rawArgs "").

End gRoute.

(** ** The persisted document

    [DumpJSON] returns and [ParseJSON] reads a JSON text.  The document is
    kept here as the JSON value that text denotes: printing and reading the
    text is the JSON library's work, not the patcher's. *)
#[warnings="-register-all"] Inductive json :=
  | JNull
  | JBool (b : bool)
  | JNumber (n : Z)
  | JString (s : string)
  | JArray (items : list json)
  | JObject (fields : list (string * json)).

Fixpoint field (key : string) (fields : list (string * json)) : option json :=
  match fields with
  | [] => None
  | (k, v) :: rest => if String.eqb k key then Some v else field key rest
  end.

Definition member (key : string) (j : json) : option json :=
  match j with
  | JObject fields => field key fields
  | _ => None
  end.

Definition get_string (key : string) (j : json) : option string :=
  match member key j with
  | Some (JString s) => Some s
  | _ => None
  end.

Definition get_number (key : string) (j : json) : option Z :=
  match member key j with
  | Some (JNumber n) => Some n
  | _ => None
  end.

(** An object id is an [unsigned int]. *)
Definition get_id (key : string) (j : json) : option nat :=
  n ← get_number key j;
  if (0 <=? n)%Z then Some (Z.to_nat n) else None.

Definition get_array (key : string) (j : json) : option (list json) :=
  match member key j with
  | Some (JArray items) => Some items
  | _ => None
  end.

(** ** The patch graph (src/YseEngine/patcher/patcher.hpp)

    The header declares the interface; the implementation class
    [patcherImplementation] is not in the source tree. *)
Module patcher.

(** Modelled from the spec: the Object of the data model, as far as the graph
    manager sees it: "stable identity (handle id), type tag (string)", the
    raw argument string it was created from, and its inlets and outlets
    (their numbers). *)
Record pObject := PObject {
  obj_type : string;
  obj_args : string;
  obj_id : nat;
  inlets : nat;
  outlets : nat }.

(** Modelled from the spec: "Connection: a directed edge (sourceObject,
    sourceOutletIndex) -> (targetObject, targetInletIndex)", objects named
    by id as in the persisted four-tuple; port indices are C++ [int]s. *)
Record connection := Connection {
  fromId : nat;
  fromOutlet : Z;
  toId : nat;
  toInlet : Z }.

(** Modelled from the spec: the Patch Graph "owns the set of live objects and
    the set of connections", objects in creation order, connections in
    registration order (duplicates are legal). *)
Record graph := Graph {
  objects : list pObject;
  connections : list connection }.

Definition empty : graph := Graph [] [].

Inductive error :=
  | UnknownObjectType
  | InvalidPort
  | ParameterParseError
  | MalformedPersistedGraph.

#[global] Instance connection_eq_dec : EqDecision connection.
Proof. solve_decision. Defined.

Section Patcher.
(** The process-wide object-type registry: a registered type tag gives the
    type's Construct-then-ParameterParse, which from the raw arguments
    derives the ports (inlets, outlets) or rejects malformed arguments. *)
Variable registry : string -> option (string -> option (nat * nat)).

(** Modelled from the spec: "IsValidObject(type) -> bool: static/pure query
    against the type registry". *)
Definition IsValidObject (type : string) : bool :=
  match registry type with
  | Some _ => true
  | None => false
  end.

(** Modelled from the spec: the creation path shared by [CreateObject] and
    [ParseJSON]: "looks up type in a process-wide object-type registry,
    allocates a new Object, runs Construct then ParameterParse(args)". *)
Definition construct (type args : string) (id : nat) : pObject + error :=
  match registry type with
  | None => inr UnknownObjectType
  | Some ctor =>
      match ctor args with
      | None => inr ParameterParseError
      | Some (ins, outs) => inl (PObject type args id ins outs)
      end
  end.

(** Modelled from the spec: a Handle is "an opaque external reference to an
    Object, stable across insertions/deletions elsewhere in the graph": the
    object's id. *)
Definition GetHandleFromID (g : graph) (obj : nat) : option pObject :=
  List.find (fun o => Nat.eqb (obj_id o) obj) (objects g).

Definition GetHandleFromList (g : graph) (obj : nat) : option pObject :=
  objects g !! obj.

Definition Objects (g : graph) : nat := length (objects g).

Definition live (g : graph) (h : nat) : bool :=
  match GetHandleFromID g h with
  | Some _ => true
  | None => false
  end.

(** Modelled from the spec: CreateObject "assigns identity".  The identity is
    one no live object has; the model takes the successor of the largest
    live id. *)
Definition fresh_id (g : graph) : nat :=
  S (max_list (obj_id <$> objects g)).

Definition CreateObject (g : graph) (type args : string)
    : graph * (nat + error) :=
  match construct type args (fresh_id g) with
  | inl o => (Graph (objects g ++ [o]) (connections g), inl (obj_id o))
  | inr e => (g, inr e)
  end.

Definition touches (h : nat) (c : connection) : Prop :=
  fromId c = h \/ toId c = h.

#[local] Instance touches_dec h c : Decision (touches h c).
Proof. unfold touches. apply _. Defined.

(** Modelled from the spec: DeleteObject "removes the Object and all
    Connections touching it"; "calling with a stale handle is undefined"
    ([None]). *)
Definition DeleteObject (g : graph) (h : nat) : option graph :=
  if live g h then
    Some (Graph (filter (fun o => obj_id o ≠ h) (objects g))
                (filter (fun c => ¬ touches h c) (connections g)))
  else None.

(** Modelled from the spec: "Clear(): deletes every Object and Connection". *)
Definition Clear (g : graph) : graph := empty.

(** Modelled from the spec: Connect and Disconnect validate that "both
    handles are live and both indices are in range". *)
Definition valid_ports (g : graph) (c : connection) : bool :=
  match GetHandleFromID g (fromId c), GetHandleFromID g (toId c) with
  | Some from, Some to =>
      (0 <=? fromOutlet c)%Z && (fromOutlet c <? Z.of_nat (outlets from))%Z
      && (0 <=? toInlet c)%Z && (toInlet c <? Z.of_nat (inlets to))%Z
  | _, _ => false
  end.

(** Modelled from the spec: "calling it twice with identical arguments
    creates two connections". *)
Definition Connect (g : graph) (c : connection) : graph * option error :=
  if valid_ports g c
  then (Graph (objects g) (connections g ++ [c]), None)
  else (g, Some InvalidPort).

Fixpoint remove_first (c : connection) (l : list connection)
    : list connection :=
  match l with
  | [] => []
  | c' :: l' => if decide (c' = c) then l' else c' :: remove_first c l'
  end.

(** Modelled from the spec: Disconnect validates like Connect; it takes one
    registration of the connection away. *)
Definition Disconnect (g : graph) (c : connection) : graph * option error :=
  if valid_ports g c
  then (Graph (objects g) (remove_first c (connections g)), None)
  else (g, Some InvalidPort).

(** Modelled from the spec: DumpJSON "serializes, for every live Object: its
    type tag, its raw parameter argument string, its assigned identifier,
    and for every Connection its four-tuple"; the field names are those of
    the persisted format, [{type, args, id}] and
    [{fromId, fromOutlet, toId, toInlet}]. *)
Definition dump_object (o : pObject) : json :=
  JObject [("type", JString (obj_type o));
           ("args", JString (obj_args o));
           ("id", JNumber (Z.of_nat (obj_id o)))].

Definition dump_connection (c : connection) : json :=
  JObject [("fromId", JNumber (Z.of_nat (fromId c)));
           ("fromOutlet", JNumber (fromOutlet c));
           ("toId", JNumber (Z.of_nat (toId c)));
           ("toInlet", JNumber (toInlet c))].

Definition DumpJSON (g : graph) : json :=
  JObject [("objects", JArray (dump_object <$> objects g));
           ("connections", JArray (dump_connection <$> connections g))].

(** Modelled from the spec: ParseJSON "recreates Objects in the same relative
    order encoded in the text, reapplies parameters via the normal
    Construct/ParameterParse path, then recreates every Connection"; it
    fails "if required fields are absent, a referenced type is unknown, or a
    connection references an object id not present in the same document". *)
Definition parse_object (j : json) : option pObject :=
  type ← get_string "type" j;
  args ← get_string "args" j;
  id ← get_id "id" j;
  match construct type args id with
  | inl o => Some o
  | inr _ => None
  end.

Definition present (objs : list pObject) (id : nat) : bool :=
  existsb (fun o => Nat.eqb (obj_id o) id) objs.

Definition parse_connection (objs : list pObject) (j : json)
    : option connection :=
  from ← get_id "fromId" j;
  outlet ← get_number "fromOutlet" j;
  to ← get_id "toId" j;
  inlet ← get_number "toInlet" j;
  if present objs from && present objs to
  then Some (Connection from outlet to inlet)
  else None.

Definition parse_document (content : json) : option graph :=
  objs ← get_array "objects" content ≫= mapM parse_object;
  conns ← get_array "connections" content ≫= mapM (parse_connection objs);
  Some (Graph objs conns).

(** "Clears the current graph", and "on failure the graph is left empty". *)
Definition ParseJSON (g : graph) (content : json) : graph * option error :=
  match parse_document content with
  | Some g' => (g', None)
  | None => (Clear g, Some MalformedPersistedGraph)
  end.

(** *** Graphs built through the interface

    A host builds a graph by calling the mutating operations one after the
    other from the empty graph.  A call that reports an error leaves the
    graph as the operation says; a call the specification leaves undefined
    builds nothing. *)
Inductive op :=
  | DoCreateObject (type args : string)
  | DoDeleteObject (h : nat)
  | DoClear
  | DoConnect (c : connection)
  | DoDisconnect (c : connection)
  | DoParseJSON (content : json).

Definition step (g : graph) (o : op) : option graph :=
  match o with
  | DoCreateObject type args => Some (fst (CreateObject g type args))
  | DoDeleteObject h => DeleteObject g h
  | DoClear => Some (Clear g)
  | DoConnect c => Some (fst (Connect g c))
  | DoDisconnect c => Some (fst (Disconnect g c))
  | DoParseJSON content => Some (fst (ParseJSON g content))
  end.

Fixpoint run (ops : list op) (g : graph) : option graph :=
  match ops with
  | [] => Some g
  | o :: rest => step g o ≫= run rest
  end.

Definition built (g : graph) : Prop := ∃ ops, run ops empty = Some g.

(** What every graph built through the interface satisfies: each object is
    what its creation path makes of its type tag, arguments and id, and
    each connection joins objects of the graph. *)
Definition constructed (o : pObject) : Prop :=
  construct (obj_type o) (obj_args o) (obj_id o) = inl o.

Definition joined (objs : list pObject) (c : connection) : Prop :=
  present objs (fromId c) = true /\ present objs (toId c) = true.

Definition well_formed (g : graph) : Prop :=
  Forall constructed (objects g) /\ Forall (joined (objects g)) (connections g).

(** What the round trip compares of an object: type tag, raw argument
    string and id. *)
Definition persisted (o : pObject) : string * string * nat :=
  (obj_type o, obj_args o, obj_id o).

(** *** External injection *)

(** The name an object answers to ("implementation-defined but must be
    exact, e.g., matching an object's configured label"), and the object
    protocol's dispatch of a message to an object's first inlet; the
    dispatch may change object state and may fail ([None]). *)
Variable label : pObject -> string.
Variable deliver : graph -> pObject -> gRoute.message -> option graph.

(** Modelled from the spec: "resolve name to a live Object and deliver the
    corresponding message to that object's first inlet"; "returns false
    (does not fail/throw) when no Object matches the name". *)
Definition pass (g : graph) (m : gRoute.message) (to : string)
    : option (graph * bool) :=
  match List.find (fun o => String.eqb (label o) to) (objects g) with
  | None => Some (g, false)
  | Some o => g' ← deliver g o m; Some (g', true)
  end.

Definition PassBang (g : graph) (to : string) :=
  pass g gRoute.Bang to.

Definition PassData_int (g : graph) (value : Z) (to : string) :=
  pass g (gRoute.Int value) to.

Definition PassData_float (g : graph) (value : float) (to : string) :=
  pass g (gRoute.Float value) to.

Definition PassData_string (g : graph) (value to : string) :=
  pass g (gRoute.List value) to.

End Patcher.

(** *** A sample registry, label and dispatch

    One registered type, the router: one inlet ([ADD_IN_0]) and the outlets
    its construction derives from the arguments.  An object answers to its
    argument string, and the dispatch runs the router's handler. *)
Definition sample_router (args : string) : option gRoute.t :=
  T ← gRoute.sample_parse_args args;
  Some (gRoute.PARM_PARSE (gRoute.PARM_CLEAR (gRoute.Build T []))).

Definition sample_registry (type : string)
    : option (string -> option (nat * nat)) :=
  if String.eqb type "route"
  then Some (fun args =>
               r ← sample_router args; Some (1, length (gRoute.outputs r)))
  else None.

Definition sample_deliver (g : graph) (o : pObject) (m : gRoute.message)
    : option graph :=
  r ← sample_router (obj_args o);
  match @gRoute.handle gRoute.fixed6 r m with
  | gRoute.Sent _ => Some g
  | gRoute.OutOfRange => None
  end.

End patcher.

(** * Properties of the router *)

Section RouterFacts.
Import gRoute.

Lemma compare_Eq_iff (s1 s2 : string) : String.compare s1 s2 = Eq <-> s1 = s2.
Proof.
  split; [apply String.compare_eq_iff | intros ->].
  pose proof (String.compare_antisym s2 s2) as H.
  destruct (String.compare s2 s2); simpl in H; congruence.
Qed.

(** [PARM_PARSE] as one step of its loop. *)
Lemma PARM_PARSE_unfold (r : t) :
  PARM_PARSE r =
  if decide (length (outputs r) < length (list_ r) + 1)
  then PARM_PARSE (ADD_OUT_ANY r) else r.
Proof.
  rewrite PARM_PARSE_equation_1.
  destruct (decide (length (outputs r) < length (list_ r) + 1)); reflexivity.
Qed.

(** The loop of [PARM_PARSE] appends the missing outlets, fresh ones, behind
    the outlets it finds, and leaves the parameter alone. *)
Lemma PARM_PARSE_appends (r : t) :
  PARM_PARSE r =
  Build (list_ r)
        (outputs r
         ++ replicate (length (list_ r) + 1 - length (outputs r)) (Outlet [])).
Proof.
  remember (length (list_ r) + 1 - length (outputs r)) as todo eqn:Htodo.
  revert r Htodo.
  induction todo as [|todo IH]; intros [T outs] Htodo; cbn in Htodo |- *;
    rewrite PARM_PARSE_unfold; cbn.
  - destruct (decide _) as [Hlt|_]; [lia|]. now rewrite app_nil_r.
  - destruct (decide _) as [_|Hge]; [|lia].
    rewrite IH; cbn; [|rewrite length_app; cbn; lia].
    now rewrite <- app_assoc.
Qed.

Lemma PARM_PARSE_list (r : t) : list_ (PARM_PARSE r) = list_ r.
Proof. now rewrite PARM_PARSE_appends. Qed.

Lemma PARM_PARSE_length (r : t) :
  length (outputs (PARM_PARSE r))
  = Nat.max (length (outputs r)) (length (list_ r) + 1).
Proof.
  rewrite PARM_PARSE_appends; cbn.
  rewrite length_app, length_replicate. lia.
Qed.

(** The two accesses, when they are in range. *)
Lemma send_at_in_range (r : t) (i : nat) (send : nat -> event) :
  i < length (outputs r) -> send_at r i send = Sent [send i].
Proof.
  intros Hi. unfold send_at.
  destruct (lookup_lt_is_Some_2 (outputs r) i Hi) as [o ->]. reflexivity.
Qed.

Lemma send_back_in_range (r : t) (send : nat -> event) :
  0 < length (outputs r) ->
  send_back r send = Sent [send (length (outputs r) - 1)].
Proof.
  intros Hpos. unfold send_back. rewrite last_lookup.
  destruct (lookup_lt_is_Some_2 (outputs r) (Nat.pred (length (outputs r))))
    as [o ->]; [lia | reflexivity].
Qed.

(** The loop, from any index on: it stops at the earliest token equal to
    [s] and sends there, or runs off the list and sends on the back. *)
Lemma route_from_first (r : t) (s : string) (send : nat -> event)
    (todo i k : nat) :
  length (list_ r) <= todo + i -> i <= k ->
  first_match (list_ r) s k ->
  route_from r s send todo i = send_at r k send.
Proof.
  revert i. induction todo as [|todo IH]; intros i Hfuel Hik [Hk Hfirst].
  - apply lookup_lt_Some in Hk. cbn in Hfuel. lia.
  - cbn. destruct (list_ r !! i) as [item|] eqn:Hi.
    + destruct (String.compare item s) eqn:Hcmp.
      * apply compare_Eq_iff in Hcmp. subst item.
        destruct (decide (i = k)) as [->|Hne]; [reflexivity|].
        exfalso. apply (Hfirst i); [lia | assumption].
      * apply IH; [lia | | split; assumption].
        destruct (decide (i = k)) as [->|Hne]; [|lia].
        assert (item = s) as Heq by congruence.
        apply compare_Eq_iff in Heq. congruence.
      * apply IH; [lia | | split; assumption].
        destruct (decide (i = k)) as [->|Hne]; [|lia].
        assert (item = s) as Heq by congruence.
        apply compare_Eq_iff in Heq. congruence.
    + apply lookup_lt_Some in Hk. apply lookup_ge_None in Hi. lia.
Qed.

Lemma route_from_none (r : t) (s : string) (send : nat -> event)
    (todo i : nat) :
  s ∉ list_ r ->
  route_from r s send todo i = send_back r send.
Proof.
  intros Hnot. revert i. induction todo as [|todo IH]; intros i; cbn.
  - reflexivity.
  - destruct (list_ r !! i) as [item|] eqn:Hi; [|reflexivity].
    destruct (String.compare item s) eqn:Hcmp; [|apply IH..].
    apply compare_Eq_iff in Hcmp. subst item.
    exfalso. apply Hnot. eapply list_elem_of_lookup_2. exact Hi.
Qed.

(** A token that occurs has an earliest occurrence. *)
Lemma first_match_exists (T : list string) (s : string) :
  s ∈ T -> exists i, first_match T s i.
Proof.
  induction T as [|item T IH]; intros Hin.
  - now apply elem_of_nil in Hin.
  - destruct (decide (item = s)) as [->|Hne].
    + exists 0. split; [reflexivity | intros j Hj; lia].
    + apply elem_of_cons in Hin as [->|Hin]; [congruence|].
      destruct (IH Hin) as (i & Hi & Hfirst).
      exists (S i). split; [exact Hi|].
      intros [|j] Hj; cbn; [congruence | apply Hfirst; lia].
Qed.

Lemma first_match_unique (T : list string) (s : string) (i j : nat) :
  first_match T s i -> first_match T s j -> i = j.
Proof.
  intros [Hi Hfi] [Hj Hfj].
  destruct (Nat.lt_trichotomy i j) as [Hlt|[->|Hgt]]; [|reflexivity|].
  - now apply Hfj in Hlt.
  - now apply Hfi in Hgt.
Qed.

(** The routing rule all four handlers follow, on a router whose outlets
    are one more than its tokens. *)
Lemma route_rule (r : t) (s : string) (send : nat -> event) :
  length (outputs r) = length (list_ r) + 1 ->
  (s ∈ list_ r ->
   exists i, first_match (list_ r) s i /\ route r s send = Sent [send i])
  /\ (s ∉ list_ r -> route r s send = Sent [send (length (list_ r))]).
Proof.
  intros Hinv. unfold route. split.
  - intros Hin. destruct (first_match_exists _ _ Hin) as [i Hi].
    exists i. split; [exact Hi|].
    rewrite (route_from_first r s send _ 0 i); [|lia|lia|exact Hi].
    apply send_at_in_range. destruct Hi as [Hi _].
    apply lookup_lt_Some in Hi. lia.
  - intros Hnot. rewrite route_from_none by exact Hnot.
    rewrite send_back_in_range by lia. do 3 f_equal. lia.
Qed.

End RouterFacts.

(** The integer rendering is canonical: it reads back as the integer, so two
    integers with one rendering are one integer. *)
Lemma to_string_int_reads_back (value : Z) :
  NilZero.int_of_string (to_string value) = Some (Z.to_int value).
Proof.
  unfold to_string, to_string_int. apply NilZero.isi.
  - destruct value as [|p|p]; cbn; try discriminate.
    intros H. injection H as H. now apply Unsigned.to_uint_nonnil in H.
  - destruct value as [|p|p]; cbn; try discriminate.
    intros H. injection H as H. now apply Unsigned.to_uint_nonnil in H.
Qed.

Lemma to_string_int_inj (v w : Z) : to_string v = to_string w -> v = w.
Proof.
  intros H. apply DecimalZ.to_int_inj.
  pose proof (to_string_int_reads_back v) as Hv.
  pose proof (to_string_int_reads_back w) as Hw.
  rewrite H in Hv. congruence.
Qed.

(** The dispatch scenarios of the specification. *)
Section Scenarios.
Import gRoute.

Example bang_routes_to_its_token :
  SetBangValue (Build ["foo"; "bang"; "baz"] (replicate 4 (Outlet [])))
  = Sent [SendBang 1].
Proof. reflexivity. Qed.

Example bang_routes_to_catch_all :
  SetBangValue (Build ["foo"; "baz"] (replicate 3 (Outlet [])))
  = Sent [SendBang 2].
Proof. reflexivity. Qed.

Example bang_match_is_case_sensitive :
  SetBangValue (Build ["Bang"; "bang "] (replicate 3 (Outlet [])))
  = Sent [SendBang 2].
Proof. reflexivity. Qed.

Example int_routes_to_its_token :
  SetIntValue (Build ["1"; "2"] (replicate 3 (Outlet []))) 1
  = Sent [SendInt 0 1].
Proof. reflexivity. Qed.

Example int_routes_to_catch_all :
  SetIntValue (Build ["1"; "2"] (replicate 3 (Outlet []))) 5
  = Sent [SendInt 2 5].
Proof. reflexivity. Qed.

Example negative_int_routes_to_its_token :
  SetIntValue (Build ["7"; "-7"] (replicate 3 (Outlet []))) (-7)
  = Sent [SendInt 1 (-7)].
Proof. reflexivity. Qed.

Example list_routes_on_first_item :
  SetListValue (Build ["hello"] (replicate 2 (Outlet []))) "hello world"
  = Sent [SendList 0 "hello world"].
Proof. reflexivity. Qed.

Example list_routes_to_catch_all :
  SetListValue (Build ["hello"] (replicate 2 (Outlet []))) "goodbye world"
  = Sent [SendList 1 "goodbye world"].
Proof. reflexivity. Qed.

(** With the [%f] rendering the float 1.0 is ["1.000000"]: it does not match
    the token ["1"] that the integer 1 matches. *)
Example float_one_misses_token_1 :
  @to_string _ fixed6 (FFinite false 1 0) = "1.000000"
  /\ @SetFloatValue fixed6 (Build ["1"] (replicate 2 (Outlet [])))
        (FFinite false 1 0)
      = Sent [SendFloat 1 (FFinite false 1 0)]
  /\ SetIntValue (Build ["1"] (replicate 2 (Outlet []))) 1
      = Sent [SendInt 0 1].
Proof. repeat split. Qed.

(** Without the clear, a shorter token list keeps the outlets it finds, and
    the catch-all is the last of them. *)
Example parse_alone_keeps_outlets :
  let r := PARM_PARSE (Build ["a"] (replicate 4 (Outlet []))) in
  length (outputs r) = 4 /\ SetBangValue r = Sent [SendBang 3].
Proof. split; reflexivity. Qed.

End Scenarios.

Section RouterClaims.
Import gRoute.
Context {to_string_float : ToString float}.

(** C1: for every token list [T] of size N, ParameterClear followed by
    ParameterParse leaves exactly N+1 outlets, whatever outlets were there
    before; the last outlet is at index N, and it is the catch-all: that is
    where [outputs.back()] sends. *)
Theorem C1_clear_then_parse (T : list string) (outs : list outlet) :
  let r := PARM_PARSE (PARM_CLEAR (Build T outs)) in
  list_ r = T
  /\ length (outputs r) = length T + 1
  /\ (exists o, last (outputs r) = Some o /\ outputs r !! length T = Some o)
  /\ forall send, send_back r send = Sent [send (length T)].
Proof.
  cbn zeta.
  assert (Hlen : length (outputs (PARM_PARSE (PARM_CLEAR (Build T outs))))
                 = length T + 1).
  { rewrite PARM_PARSE_length. cbn. lia. }
  assert (Hlist : list_ (PARM_PARSE (PARM_CLEAR (Build T outs))) = T).
  { now rewrite PARM_PARSE_list. }
  repeat split; [exact Hlist | exact Hlen | |].
  - rewrite last_lookup, Hlen.
    replace (Nat.pred (length T + 1)) with (length T) by lia.
    destruct (lookup_lt_is_Some_2
                (outputs (PARM_PARSE (PARM_CLEAR (Build T outs)))) (length T))
      as [o Ho]; [lia|]. exists o. split; exact Ho.
  - intros send. rewrite send_back_in_range by lia.
    rewrite Hlen. do 3 f_equal. lia.
Qed.

(** C8: [PARM_PARSE] never removes an outlet.  From M outlets and a token
    list of size N it leaves max(M, N+1) outlets, and every outlet that was
    there, with its connections, is still there at the same index; so every
    connection on an outlet index that was valid stays valid. *)
Theorem C8_parse_never_removes (T : list string) (outs : list outlet) :
  let r := PARM_PARSE (Build T outs) in
  length (outputs r) = Nat.max (length outs) (length T + 1)
  /\ (forall i o, outs !! i = Some o -> outputs r !! i = Some o)
  /\ (forall i, i < length outs -> i < length (outputs r)).
Proof.
  cbn zeta. rewrite PARM_PARSE_length. cbn. split; [reflexivity|]. split.
  - intros i o Hi. rewrite PARM_PARSE_appends. cbn.
    now apply lookup_app_l_Some.
  - intros i Hi. lia.
Qed.

(** C5: on a router with its N+1 outlets, a bang is sent exactly once: on
    the outlet of the earliest token equal to ["bang"] when there is one,
    on the catch-all outlet N otherwise. *)
Theorem C5_bang_dispatch (r : t) :
  length (outputs r) = length (list_ r) + 1 ->
  ("bang" ∈ list_ r ->
   exists i, first_match (list_ r) "bang" i
             /\ SetBangValue r = Sent [SendBang i])
  /\ ("bang" ∉ list_ r -> SetBangValue r = Sent [SendBang (length (list_ r))]).
Proof. intros Hinv. exact (route_rule r "bang" SendBang Hinv). Qed.

Lemma C5_bang_dispatch_witness :
  let r := Build ["foo"; "bang"; "baz"] (replicate 4 (Outlet [])) in
  length (outputs r) = length (list_ r) + 1
  /\ (("bang" ∈ list_ r ->
       exists i, first_match (list_ r) "bang" i
                 /\ SetBangValue r = Sent [SendBang i])
      /\ ("bang" ∉ list_ r ->
          SetBangValue r = Sent [SendBang (length (list_ r))])).
Proof.
  split; [reflexivity|].
  apply (C5_bang_dispatch
           (Build ["foo"; "bang"; "baz"] (replicate 4 (Outlet [])))).
  reflexivity.
Defined.

(** C6: on a router with its N+1 outlets, an integer is compared through
    its decimal rendering [to_string value]; it is forwarded unchanged,
    once, on the outlet of the earliest token equal to that string (so with
    duplicate tokens the earliest wins), and on the catch-all outlet N when
    no token equals it. *)
Theorem C6_int_dispatch (r : t) (value : Z) :
  length (outputs r) = length (list_ r) + 1 ->
  (to_string value ∈ list_ r ->
   exists i, first_match (list_ r) (to_string value) i
             /\ SetIntValue r value = Sent [SendInt i value])
  /\ (to_string value ∉ list_ r ->
      SetIntValue r value = Sent [SendInt (length (list_ r)) value]).
Proof.
  intros Hinv.
  exact (route_rule r (to_string value) (fun i => SendInt i value) Hinv).
Qed.

Lemma C6_int_dispatch_witness :
  let r := Build ["2"; "1"; "1"] (replicate 4 (Outlet [])) in
  length (outputs r) = length (list_ r) + 1
  /\ ((to_string 1%Z ∈ list_ r ->
       exists i, first_match (list_ r) (to_string 1%Z) i
                 /\ SetIntValue r 1 = Sent [SendInt i 1])
      /\ (to_string 1%Z ∉ list_ r ->
          SetIntValue r 1 = Sent [SendInt (length (list_ r)) 1])).
Proof.
  split; [reflexivity|].
  apply (C6_int_dispatch (Build ["2"; "1"; "1"] (replicate 4 (Outlet []))) 1).
  reflexivity.
Defined.

(** C3: on a router with its N+1 outlets, a float is compared through
    [to_string value], the same overloaded [std::to_string] the integer
    handler calls; it is forwarded unchanged, once, on the outlet of the
    earliest token equal to that string, and on the catch-all outlet N when
    no token equals it. *)
Theorem C3_float_dispatch (r : t) (value : float) :
  length (outputs r) = length (list_ r) + 1 ->
  (to_string value ∈ list_ r ->
   exists i, first_match (list_ r) (to_string value) i
             /\ SetFloatValue r value = Sent [SendFloat i value])
  /\ (to_string value ∉ list_ r ->
      SetFloatValue r value = Sent [SendFloat (length (list_ r)) value]).
Proof.
  intros Hinv.
  exact (route_rule r (to_string value) (fun i => SendFloat i value) Hinv).
Qed.

End RouterClaims.

Section FloatWitness.
Import gRoute.

Lemma C3_float_dispatch_witness :
  let r := Build ["1"; "1.500000"] (replicate 3 (Outlet [])) in
  let value := FFinite false 3 (-1) in
  length (outputs r) = length (list_ r) + 1
  /\ ((@to_string _ fixed6 value ∈ list_ r ->
       exists i, first_match (list_ r) (@to_string _ fixed6 value) i
                 /\ @SetFloatValue fixed6 r value = Sent [SendFloat i value])
      /\ (@to_string _ fixed6 value ∉ list_ r ->
          @SetFloatValue fixed6 r value
          = Sent [SendFloat (length (list_ r)) value])).
Proof.
  split; [reflexivity|].
  apply (@C3_float_dispatch fixed6
           (Build ["1"; "1.500000"] (replicate 3 (Outlet [])))
           (FFinite false 3 (-1))).
  reflexivity.
Defined.

End FloatWitness.

Section ListClaims.
Import gRoute.

(** [value.find(" ")] and [value.substr(0, pos)] together cut the payload at
    its first space. *)
Lemma first_item_until_space (value : string) :
  first_item value = until_space value.
Proof.
  unfold first_item. induction value as [|c rest IH]; [reflexivity|].
  cbn [String.index until_space String.prefix].
  destruct (Ascii.eqb_spec c " ") as [->|Hne].
  - cbn. destruct rest; reflexivity.
  - destruct (ascii_dec " " c) as [Heq|_]; [congruence|].
    destruct (String.index 0 " " rest) as [pos|]; cbn; congruence.
Qed.

(** C4, as amended: on a router with its N+1 outlets, the compared token of
    a list payload is the payload up to its first space character (the
    whole payload when it holds no space; a tab or a line break does not
    end the token); the entire payload is forwarded, once, on the outlet of
    the earliest token of [T] equal to it, and on the catch-all outlet N
    when no token equals it. *)
Theorem C4_list_dispatch (r : t) (value : string) :
  length (outputs r) = length (list_ r) + 1 ->
  first_item value = until_space value
  /\ (first_item value ∈ list_ r ->
      exists i, first_match (list_ r) (first_item value) i
                /\ SetListValue r value = Sent [SendList i value])
  /\ (first_item value ∉ list_ r ->
      SetListValue r value = Sent [SendList (length (list_ r)) value]).
Proof.
  intros Hinv. split; [apply first_item_until_space|].
  exact (route_rule r (first_item value) (fun i => SendList i value) Hinv).
Qed.

Lemma C4_list_dispatch_witness :
  let r := Build ["hello"] (replicate 2 (Outlet [])) in
  let value := "hello world" in
  length (outputs r) = length (list_ r) + 1
  /\ (first_item value = until_space value
      /\ (first_item value ∈ list_ r ->
          exists i, first_match (list_ r) (first_item value) i
                    /\ SetListValue r value = Sent [SendList i value])
      /\ (first_item value ∉ list_ r ->
          SetListValue r value = Sent [SendList (length (list_ r)) value])).
Proof.
  split; [reflexivity|].
  apply (C4_list_dispatch (Build ["hello"] (replicate 2 (Outlet [])))
           "hello world").
  reflexivity.
Defined.

(** C4 as the specification states it fails on a payload whose first
    whitespace is a tab: the whitespace-delimited token [hello] is the
    router's token 0, yet the payload goes to the catch-all outlet 1. *)
Lemma C4_whitespace_counterexample :
  let r := Build ["hello"] (replicate 2 (Outlet [])) in
  let value := "hello" ++ String "009" "world" in
  length (outputs r) = length (list_ r) + 1
  /\ spec_first_token value = "hello"
  /\ spec_outlet (list_ r) (spec_first_token value) = 0
  /\ SetListValue r value = Sent [SendList 1 value]
  /\ SetListValue r value
     <> Sent [SendList (spec_outlet (list_ r) (spec_first_token value)) value].
Proof. cbn zeta. repeat split. discriminate. Qed.

End ListClaims.

Section SafetyClaims.
Import gRoute.
Context {to_string_float : ToString float}.

Lemma route_from_no_outlets (r : t) (s : string) (send : nat -> event)
    (todo i : nat) :
  outputs r = [] -> route_from r s send todo i = OutOfRange.
Proof.
  intros Hempty. revert i. induction todo as [|todo IH]; intros i; cbn.
  - unfold send_back. now rewrite Hempty.
  - destruct (list_ r !! i) as [item|];
      [|unfold send_back; now rewrite Hempty].
    destruct (String.compare item s); [|apply IH..].
    unfold send_at. now rewrite Hempty.
Qed.

Lemma route_in_range (r : t) (s : string) (send : nat -> event) :
  length (outputs r) = length (list_ r) + 1 ->
  exists trace, route r s send = Sent trace.
Proof.
  intros Hinv. destruct (route_rule r s send Hinv) as [Hin Hnot].
  destruct (decide (s ∈ list_ r)) as [H|H].
  - destruct (Hin H) as (i & _ & ->). eauto.
  - rewrite (Hnot H). eauto.
Qed.

(** C10: when the outlets are one more than the tokens, no handler reaches
    an access outside [outputs], on any message: each run ends with its
    sends done.  The precondition is needed: after ParameterClear alone
    there is no outlet, and every handler, on every message, reaches an
    access with no valid target. *)
Theorem C10_accesses_in_range (r : t) :
  (length (outputs r) = length (list_ r) + 1 ->
   forall m, exists trace, handle r m = Sent trace)
  /\ (forall m, handle (PARM_CLEAR r) m = OutOfRange).
Proof.
  split.
  - intros Hinv [| value | value | value]; cbn;
      apply route_in_range; exact Hinv.
  - intros [| value | value | value]; cbn;
      apply route_from_no_outlets; reflexivity.
Qed.

End SafetyClaims.

Section SafetyWitness.
Import gRoute.

Lemma C10_accesses_in_range_witness :
  let r := Build ["foo"; "bang"] (replicate 3 (Outlet [])) in
  length (outputs r) = length (list_ r) + 1
  /\ forall m, exists trace, @handle fixed6 r m = Sent trace.
Proof.
  split; [reflexivity|].
  apply (proj1 (@C10_accesses_in_range fixed6
                  (Build ["foo"; "bang"] (replicate 3 (Outlet []))))).
  reflexivity.
Defined.

End SafetyWitness.

Section ParameterClaims.
Import gRoute.
Variable parse_args : string -> option (list string).

(** C7: when the arguments of a re-parse are malformed, the re-parse fails
    with ParameterParseError and leaves the router as ParameterClear left
    it: with no outlet, not with the outlets it had.  On a router that had
    outlets the failed re-parse is therefore no no-op. *)
Theorem C7_failed_reparse_is_clear (rawArgs : string) (r : t) :
  parse_args rawArgs = None ->
  reparse parse_args rawArgs r = (PARM_CLEAR r, Some ParameterParseError)
  /\ outputs (fst (reparse parse_args rawArgs r)) = []
  /\ (outputs r <> [] -> fst (reparse parse_args rawArgs r) <> r).
Proof.
  intros Hfail. unfold reparse, ParameterParse, ParameterClear.
  rewrite Hfail. cbn. repeat split.
  intros Hsome Heq. apply Hsome. now rewrite <- Heq.
Qed.

End ParameterClaims.

Lemma C7_failed_reparse_is_clear_witness :
  let r := gRoute.Build ["a"] (replicate 2 (gRoute.Outlet [])) in
  let rawArgs := "a" ++ String "007" "b" in
  gRoute.sample_parse_args rawArgs = None
  /\ (gRoute.reparse gRoute.sample_parse_args rawArgs r
      = (gRoute.PARM_CLEAR r, Some gRoute.ParameterParseError)
      /\ gRoute.outputs (fst (gRoute.reparse gRoute.sample_parse_args rawArgs r))
         = []
      /\ (gRoute.outputs r <> [] ->
          fst (gRoute.reparse gRoute.sample_parse_args rawArgs r) <> r)).
Proof.
  split; [reflexivity|].
  apply (C7_failed_reparse_is_clear gRoute.sample_parse_args
           ("a" ++ String "007" "b")
           (gRoute.Build ["a"] (replicate 2 (gRoute.Outlet [])))).
  reflexivity.
Defined.

(** * Properties of the patch graph *)

Section GraphFacts.
Import patcher.
Variable registry : string -> option (string -> option (nat * nat)).

Lemma construct_constructed (type args : string) (id : nat) (o : pObject) :
  construct registry type args id = inl o -> constructed registry o.
Proof.
  unfold constructed, construct. intros H.
  destruct (registry type) as [ctor|] eqn:Hreg; [|discriminate].
  destruct (ctor args) as [[ins outs]|] eqn:Hctor; [|discriminate].
  injection H as <-. cbn. now rewrite Hreg, Hctor.
Qed.

Lemma present_elem (objs : list pObject) (id : nat) :
  present objs id = true <-> exists o, o ∈ objs /\ obj_id o = id.
Proof.
  unfold present. rewrite existsb_exists. split.
  - intros (o & Hin & Heq). exists o.
    split; [now apply list_elem_of_In | now apply Nat.eqb_eq].
  - intros (o & Hin & Heq). exists o.
    split; [now apply list_elem_of_In | now apply Nat.eqb_eq].
Qed.

Lemma GetHandleFromID_present (g : graph) (id : nat) (o : pObject) :
  GetHandleFromID g id = Some o -> present (objects g) id = true.
Proof.
  unfold GetHandleFromID. intros H. apply find_some in H as [Hin Heq].
  apply present_elem. exists o.
  split; [now apply list_elem_of_In | now apply Nat.eqb_eq].
Qed.

Lemma valid_ports_joined (g : graph) (c : connection) :
  valid_ports g c = true -> joined (objects g) c.
Proof.
  unfold valid_ports. intros H.
  destruct (GetHandleFromID g (fromId c)) as [from|] eqn:Hfrom;
    [|discriminate].
  destruct (GetHandleFromID g (toId c)) as [to|] eqn:Hto; [|discriminate].
  split; eapply GetHandleFromID_present; eassumption.
Qed.

Lemma joined_mono (objs objs' : list pObject) (c : connection) :
  (forall o, o ∈ objs -> o ∈ objs') -> joined objs c -> joined objs' c.
Proof.
  intros Hsub [Hfrom Hto].
  split; apply present_elem; [apply present_elem in Hfrom as (o & Hin & Heq)
                             | apply present_elem in Hto as (o & Hin & Heq)];
    exists o; auto.
Qed.

Lemma remove_first_subset (c c' : connection) (l : list connection) :
  c' ∈ remove_first c l -> c' ∈ l.
Proof.
  induction l as [|x l IH]; cbn; [trivial|].
  destruct (decide (x = c)) as [_|_]; intros Hin.
  - now apply elem_of_cons; right.
  - apply elem_of_cons in Hin as [->|Hin]; apply elem_of_cons; auto.
Qed.

(** Reading back what [DumpJSON] wrote. *)
Lemma parse_dump_object (o : pObject) :
  constructed registry o -> parse_object registry (dump_object o) = Some o.
Proof.
  intros Ho. unfold parse_object, dump_object, get_string, get_id, get_number.
  cbn. destruct (Z.leb_spec 0 (Z.of_nat (obj_id o))) as [_|Hneg]; [|lia].
  cbn. rewrite Nat2Z.id. unfold constructed in Ho. now rewrite Ho.
Qed.

Lemma parse_dump_connection (objs : list pObject) (c : connection) :
  joined objs c -> parse_connection objs (dump_connection c) = Some c.
Proof.
  intros [Hfrom Hto].
  unfold parse_connection, dump_connection, get_id, get_number. cbn.
  destruct (Z.leb_spec 0 (Z.of_nat (fromId c))) as [_|Hneg]; [|lia].
  destruct (Z.leb_spec 0 (Z.of_nat (toId c))) as [_|Hneg]; [|lia].
  cbn. rewrite !Nat2Z.id, Hfrom, Hto. cbn. now destruct c.
Qed.

Lemma parse_dump (g : graph) :
  well_formed registry g -> parse_document registry (DumpJSON g) = Some g.
Proof.
  intros [Hobjs Hconns]. unfold parse_document, DumpJSON, get_array. cbn.
  rewrite (mapM_fmap_Forall_Some (parse_object registry) dump_object).
  2:{ eapply Forall_impl; [exact Hobjs|]. intros o. apply parse_dump_object. }
  cbn.
  rewrite (mapM_fmap_Forall_Some (parse_connection (objects g))
             dump_connection).
  2:{ eapply Forall_impl; [exact Hconns|]. intros c.
      apply parse_dump_connection. }
  cbn. now destruct g.
Qed.

(** Whatever document is read, what [ParseJSON] leaves is well formed. *)
Lemma parse_object_constructed (j : json) (o : pObject) :
  parse_object registry j = Some o -> constructed registry o.
Proof.
  unfold parse_object. intros H.
  destruct (get_string "type" j) as [type|]; [|discriminate].
  destruct (get_string "args" j) as [args|]; [|discriminate].
  destruct (get_id "id" j) as [id|]; [|discriminate]. cbn in H.
  destruct (construct registry type args id) as [o'|e] eqn:Hc; [|discriminate].
  injection H as <-. eapply construct_constructed. exact Hc.
Qed.

Lemma parse_connection_joined (objs : list pObject) (j : json)
    (c : connection) :
  parse_connection objs j = Some c -> joined objs c.
Proof.
  unfold parse_connection. intros H.
  destruct (get_id "fromId" j) as [from|]; [|discriminate].
  destruct (get_number "fromOutlet" j) as [outlet|]; [|discriminate].
  destruct (get_id "toId" j) as [to|]; [|discriminate].
  destruct (get_number "toInlet" j) as [inlet|]; [|discriminate]. cbn in H.
  destruct (present objs from) eqn:Hfrom; [|discriminate].
  destruct (present objs to) eqn:Hto; [|discriminate].
  injection H as <-. split; assumption.
Qed.

Lemma well_formed_empty : well_formed registry empty.
Proof. split; constructor. Qed.

Lemma parse_document_well_formed (content : json) (g : graph) :
  parse_document registry content = Some g -> well_formed registry g.
Proof.
  unfold parse_document. intros H.
  destruct (get_array "objects" content) as [objs_json|]; [|discriminate].
  cbn in H.
  destruct (mapM (parse_object registry) objs_json) as [objs|] eqn:Hobjs;
    [|discriminate].
  cbn in H.
  destruct (get_array "connections" content) as [conns_json|]; [|discriminate].
  cbn in H.
  destruct (mapM (parse_connection objs) conns_json) as [conns|] eqn:Hconns;
    [|discriminate].
  injection H as <-. split; cbn.
  - apply mapM_Some_1 in Hobjs. apply Forall_forall. intros o Hin.
    apply list_elem_of_lookup in Hin as [i Hi].
    destruct (Forall2_lookup_r _ _ _ _ _ Hobjs Hi) as (j & _ & Hj).
    eapply parse_object_constructed. exact Hj.
  - apply mapM_Some_1 in Hconns. apply Forall_forall. intros c Hin.
    apply list_elem_of_lookup in Hin as [i Hi].
    destruct (Forall2_lookup_r _ _ _ _ _ Hconns Hi) as (j & _ & Hj).
    eapply parse_connection_joined. exact Hj.
Qed.

Lemma step_well_formed (g g' : graph) (o : op) :
  well_formed registry g -> step registry g o = Some g' -> well_formed registry g'.
Proof.
  intros [Hobjs Hconns] Hstep.
  destruct o as [type args | h | | c | c | content]; cbn in Hstep.
  - injection Hstep as <-. unfold CreateObject.
    destruct (construct registry type args (fresh_id g)) as [o|e] eqn:Hc;
      cbn; [|split; assumption].
    split; cbn.
    + apply Forall_app. split; [assumption|].
      constructor; [|constructor]. eapply construct_constructed. exact Hc.
    + eapply Forall_impl; [exact Hconns|]. intros c.
      apply joined_mono. intros o' Hin. apply elem_of_app. now left.
  - unfold DeleteObject in Hstep.
    destruct (live g h); [|discriminate]. injection Hstep as <-.
    split; cbn.
    + apply Forall_forall. intros o Hin.
      apply list_elem_of_filter in Hin as [_ Hin].
      rewrite Forall_forall in Hobjs. now apply Hobjs.
    + apply Forall_forall. intros c Hin.
      apply list_elem_of_filter in Hin as [Hfree Hin].
      rewrite Forall_forall in Hconns. destruct (Hconns c Hin) as [Hfrom Hto].
      unfold touches in Hfree.
      split; apply present_elem;
        [apply present_elem in Hfrom as (o & Ho & Heq)
        | apply present_elem in Hto as (o & Ho & Heq)];
        exists o; (split; [|exact Heq]);
        apply list_elem_of_filter; (split; [|exact Ho]); intros Hh;
        apply Hfree; [left | right]; congruence.
  - injection Hstep as <-. apply well_formed_empty.
  - injection Hstep as <-. unfold Connect.
    destruct (valid_ports g c) eqn:Hvalid; cbn; [|split; assumption].
    split; cbn; [assumption|].
    apply Forall_app. split; [assumption|].
    constructor; [|constructor]. now apply valid_ports_joined.
  - injection Hstep as <-. unfold Disconnect.
    destruct (valid_ports g c) eqn:Hvalid; cbn; [|split; assumption].
    split; cbn; [assumption|].
    rewrite Forall_forall in Hconns. apply Forall_forall. intros c' Hin.
    apply Hconns. eapply remove_first_subset. exact Hin.
  - injection Hstep as <-. unfold ParseJSON.
    destruct (parse_document registry content) as [g'|] eqn:Hparse; cbn.
    + eapply parse_document_well_formed. exact Hparse.
    + apply well_formed_empty.
Qed.

Lemma run_well_formed (ops : list op) (g g' : graph) :
  well_formed registry g -> run registry ops g = Some g' -> well_formed registry g'.
Proof.
  revert g. induction ops as [|o ops IH]; intros g Hg Hrun; cbn in Hrun.
  - now injection Hrun as <-.
  - destruct (step registry g o) as [g1|] eqn:Hstep; [|discriminate].
    cbn in Hrun. eapply IH; [|exact Hrun].
    eapply step_well_formed; eassumption.
Qed.

Lemma built_well_formed (g : graph) : built registry g -> well_formed registry g.
Proof.
  intros [ops Hrun]. eapply run_well_formed; [apply well_formed_empty|].
  exact Hrun.
Qed.

End GraphFacts.

Section GraphClaims.
Import patcher.
Variable registry : string -> option (string -> option (nat * nat)).

(** C2: for every graph [g] built through the interface over the registered
    types, and whatever graph [current] the patcher holds, loading the dump
    of [g] succeeds and leaves a graph with the same ordered object list
    (type tag, raw argument string, id), hence the same object at every
    list position, and the same multiset of connection four-tuples. *)
Theorem C2_dump_parse_roundtrip (g current : graph) :
  built registry g ->
  exists g',
    ParseJSON registry current (DumpJSON g) = (g', None)
    /\ persisted <$> objects g' = persisted <$> objects g
    /\ (forall i, persisted <$> GetHandleFromList g' i
                  = persisted <$> GetHandleFromList g i)
    /\ connections g' ≡ₚ connections g.
Proof.
  intros Hbuilt. apply built_well_formed in Hbuilt.
  exists g. unfold ParseJSON. rewrite (parse_dump registry g Hbuilt).
  repeat split; reflexivity.
Qed.

End GraphClaims.

Section GraphWitness.
Import patcher.

Lemma C2_dump_parse_roundtrip_witness :
  let g := Graph [PObject "route" "a b" 1 1 3; PObject "route" "x" 2 1 2]
                 [Connection 1 0 2 0; Connection 1 2 2 0;
                  Connection 1 0 2 0] in
  built sample_registry g
  /\ exists g',
       ParseJSON sample_registry empty (DumpJSON g) = (g', None)
       /\ persisted <$> objects g' = persisted <$> objects g
       /\ (forall i, persisted <$> GetHandleFromList g' i
                     = persisted <$> GetHandleFromList g i)
       /\ connections g' ≡ₚ connections g.
Proof.
  assert (Hbuilt :
    built sample_registry
      (Graph [PObject "route" "a b" 1 1 3; PObject "route" "x" 2 1 2]
             [Connection 1 0 2 0; Connection 1 2 2 0; Connection 1 0 2 0])).
  { exists [DoCreateObject "route" "a b"; DoCreateObject "route" "x";
            DoConnect (Connection 1 0 2 0); DoConnect (Connection 1 2 2 0);
            DoConnect (Connection 1 5 2 0); DoConnect (Connection 1 0 2 0)].
    vm_compute. reflexivity. }
  split; [exact Hbuilt|].
  apply (C2_dump_parse_roundtrip sample_registry
           (Graph [PObject "route" "a b" 1 1 3; PObject "route" "x" 2 1 2]
                  [Connection 1 0 2 0; Connection 1 2 2 0;
                   Connection 1 0 2 0])
           empty).
  exact Hbuilt.
Defined.

End GraphWitness.

Section InjectionClaims.
Import patcher.
Variable label : pObject -> string.
Variable deliver : graph -> pObject -> gRoute.message -> option graph.

Lemma pass_no_target (g : graph) (m : gRoute.message) (to : string) :
  Forall (fun o => label o <> to) (objects g) ->
  pass label deliver g m to = Some (g, false).
Proof.
  intros Hnone. rewrite Forall_forall in Hnone. unfold pass.
  destruct (List.find (fun o => String.eqb (label o) to) (objects g))
    as [o|] eqn:Hfind; [|reflexivity].
  apply find_some in Hfind as [Hin Heq].
  apply String.eqb_eq in Heq. apply list_elem_of_In in Hin.
  now apply Hnone in Hin.
Qed.

(** C9: when no object of the graph answers to the name, each of PassBang
    and the three PassData overloads returns normally, with the flag false
    and the graph as it was, whatever the dispatch would do. *)
Theorem C9_pass_without_target (g : graph) (to : string) :
  Forall (fun o => label o <> to) (objects g) ->
  PassBang label deliver g to = Some (g, false)
  /\ (forall value, PassData_int label deliver g value to = Some (g, false))
  /\ (forall value, PassData_float label deliver g value to = Some (g, false))
  /\ (forall value, PassData_string label deliver g value to = Some (g, false)).
Proof.
  intros Hnone. repeat split; intros; now apply pass_no_target.
Qed.

End InjectionClaims.

Section InjectionWitness.
Import patcher.

Lemma C9_pass_without_target_witness :
  let g := Graph [PObject "route" "a b" 1 1 3] [] in
  Forall (fun o => obj_args o <> "c") (objects g)
  /\ (PassBang obj_args sample_deliver g "c" = Some (g, false)
      /\ (forall value,
            PassData_int obj_args sample_deliver g value "c" = Some (g, false))
      /\ (forall value,
            PassData_float obj_args sample_deliver g value "c"
            = Some (g, false))
      /\ (forall value,
            PassData_string obj_args sample_deliver g value "c"
            = Some (g, false))).
Proof.
  assert (Hnone : Forall (fun o => obj_args o <> "c")
                    (objects (Graph [PObject "route" "a b" 1 1 3] []))).
  { repeat constructor. discriminate. }
  split; [exact Hnone|].
  apply (C9_pass_without_target obj_args sample_deliver
           (Graph [PObject "route" "a b" 1 1 3] []) "c").
  exact Hnone.
Defined.

End InjectionWitness.

(** * Further properties of the router's hooks *)

Section HookFacts.
Import gRoute.

Lemma PARM_PARSE_fixed_iff (r : t) :
  PARM_PARSE r = r <-> length (list_ r) + 1 <= length (outputs r).
Proof.
  split.
  - intros Heq. pose proof (PARM_PARSE_length r) as Hlen.
    rewrite Heq in Hlen. lia.
  - intros Hle. rewrite PARM_PARSE_appends.
    replace (length (list_ r) + 1 - length (outputs r)) with 0 by lia.
    cbn. rewrite app_nil_r. now destruct r.
Qed.

(** X1: [PARM_PARSE] changes nothing exactly when the router already has at
    least one outlet more than tokens. *)
Theorem PARM_PARSE_noop_iff (r : t) :
  PARM_PARSE r = r <-> length (list_ r) + 1 <= length (outputs r).
Proof. exact (PARM_PARSE_fixed_iff r). Qed.

(** X2: [PARM_PARSE] is idempotent, and it never touches the token list. *)
Theorem PARM_PARSE_idempotent (r : t) :
  PARM_PARSE (PARM_PARSE r) = PARM_PARSE r
  /\ list_ (PARM_PARSE r) = list_ r.
Proof.
  split; [|apply PARM_PARSE_list].
  apply PARM_PARSE_fixed_iff.
  rewrite PARM_PARSE_length, PARM_PARSE_list. lia.
Qed.

(** X3: [PARM_CLEAR] followed by [PARM_PARSE] keeps nothing of the outlets
    that were there: the router ends with N+1 outlets as [ADD_OUT_ANY] makes
    them, whatever it had, so no connection of an old outlet survives. *)
Theorem clear_then_parse_is_fresh (T : list string) (outs : list outlet) :
  PARM_PARSE (PARM_CLEAR (Build T outs))
  = Build T (replicate (length T + 1) (Outlet [])).
Proof.
  rewrite PARM_PARSE_appends. cbn. do 2 f_equal. lia.
Qed.

End HookFacts.

(** * Further properties of the handlers *)

Section RouteFacts.
Import gRoute.

Lemma route_first (r : t) (s : string) (send : nat -> event) (i : nat) :
  first_match (list_ r) s i -> route r s send = send_at r i send.
Proof. intros Hi. apply route_from_first; [lia | lia | exact Hi]. Qed.

Lemma route_none (r : t) (s : string) (send : nat -> event) :
  s ∉ list_ r -> route r s send = send_back r send.
Proof. apply route_from_none. Qed.

Lemma send_at_out_of_range (r : t) (i : nat) (send : nat -> event) :
  length (outputs r) <= i -> send_at r i send = OutOfRange.
Proof.
  intros Hi. unfold send_at. now rewrite (lookup_ge_None_2 (outputs r) i Hi).
Qed.

Lemma send_back_empty (r : t) (send : nat -> event) :
  outputs r = [] -> send_back r send = OutOfRange.
Proof. intros H. unfold send_back. now rewrite H. Qed.

(** The shared loop goes out of range exactly when the earliest match has no
    outlet, or nothing matches and there is no outlet. *)
Lemma route_faults_iff (r : t) (s : string) (send : nat -> event) :
  route r s send = OutOfRange
  <-> (exists i, first_match (list_ r) s i /\ length (outputs r) <= i)
      \/ ((s ∉ list_ r) /\ outputs r = []).
Proof.
  split.
  - intros Hout. destruct (decide (s ∈ list_ r)) as [Hin|Hnot].
    + left. destruct (first_match_exists _ _ Hin) as [i Hi]. exists i.
      split; [exact Hi|]. rewrite (route_first _ _ _ _ Hi) in Hout.
      destruct (Nat.le_gt_cases (length (outputs r)) i) as [Hle|Hlt];
        [exact Hle|].
      rewrite send_at_in_range in Hout by exact Hlt. discriminate.
    + right. split; [exact Hnot|]. rewrite (route_none _ _ _ Hnot) in Hout.
      destruct (outputs r) as [|o outs] eqn:Houts; [reflexivity|].
      rewrite send_back_in_range in Hout by (rewrite Houts; cbn; lia).
      discriminate.
  - intros [(i & Hi & Hle) | [Hnot Hempty]].
    + rewrite (route_first _ _ _ _ Hi). now apply send_at_out_of_range.
    + rewrite (route_none _ _ _ Hnot). now apply send_back_empty.
Qed.

(** A run of the shared loop that ends normally made one send, in range, on
    the earliest match or else on the last outlet. *)
Lemma route_sent_inv (r : t) (s : string) (send : nat -> event)
    (trace : list event) :
  route r s send = Sent trace ->
  exists i, trace = [send i]
            /\ i < length (outputs r)
            /\ (first_match (list_ r) s i
                \/ ((s ∉ list_ r) /\ i = length (outputs r) - 1)).
Proof.
  intros Hsent. destruct (decide (s ∈ list_ r)) as [Hin|Hnot].
  - destruct (first_match_exists _ _ Hin) as [i Hi]. exists i.
    rewrite (route_first _ _ _ _ Hi) in Hsent.
    destruct (Nat.le_gt_cases (length (outputs r)) i) as [Hle|Hlt].
    + rewrite send_at_out_of_range in Hsent by exact Hle. discriminate.
    + rewrite send_at_in_range in Hsent by exact Hlt.
      injection Hsent as <-. auto.
  - rewrite (route_none _ _ _ Hnot) in Hsent.
    destruct (outputs r) as [|o outs] eqn:Houts.
    + rewrite send_back_empty in Hsent by exact Houts. discriminate.
    + rewrite send_back_in_range in Hsent by (rewrite Houts; cbn; lia).
      injection Hsent as <-. exists (length (outputs r) - 1).
      rewrite Houts. cbn. repeat split; auto; lia.
Qed.

(** The outlet a run picks does not depend on the send it performs. *)
Lemma route_uniform (r : t) (s : string) :
  (forall send, route r s send = OutOfRange)
  \/ (exists i, forall send, route r s send = Sent [send i]).
Proof.
  destruct (decide (s ∈ list_ r)) as [Hin|Hnot].
  - destruct (first_match_exists _ _ Hin) as [i Hi].
    destruct (Nat.le_gt_cases (length (outputs r)) i) as [Hle|Hlt].
    + left. intros send. rewrite (route_first _ _ _ _ Hi).
      now apply send_at_out_of_range.
    + right. exists i. intros send. rewrite (route_first _ _ _ _ Hi).
      now apply send_at_in_range.
  - destruct (outputs r) as [|o outs] eqn:Houts.
    + left. intros send. rewrite (route_none _ _ _ Hnot).
      now apply send_back_empty.
    + right. exists (length (outputs r) - 1). intros send.
      rewrite (route_none _ _ _ Hnot). apply send_back_in_range.
      rewrite Houts. cbn. lia.
Qed.

(** X9: with at least N+1 outlets, a token's outlet receives at most one
    integer value: two integers sent on the same token outlet are equal. *)
Theorem int_outlet_is_exclusive (r : t) (v w : Z) (i : nat) :
  length (list_ r) + 1 <= length (outputs r) ->
  i < length (list_ r) ->
  SetIntValue r v = Sent [SendInt i v] ->
  SetIntValue r w = Sent [SendInt i w] ->
  v = w.
Proof.
  intros Hlen Hi Hv Hw.
  destruct (route_sent_inv r _ _ _ Hv) as (j & Hj & _ & Hcv).
  injection Hj as <-.
  destruct (route_sent_inv r _ _ _ Hw) as (j & Hj & _ & Hcw).
  injection Hj as <-.
  destruct Hcv as [[Hmv _]|[_ Hlast]]; [|lia].
  destruct Hcw as [[Hmw _]|[_ Hlast]]; [|lia].
  apply to_string_int_inj. congruence.
Qed.

End RouteFacts.

Section HandlerFacts.
Import gRoute.
Context {to_string_float : ToString float}.

Lemma handle_route (r : t) (m : message) :
  handle r m = route r (compared m) (forward m).
Proof. destruct m; reflexivity. Qed.

Lemma forward_inj (m : message) (i j : nat) :
  forward m i = forward m j -> i = j.
Proof. destruct m; cbn; congruence. Qed.

Lemma handle_sent_inv (r : t) (m : message) (trace : list event) :
  handle r m = Sent trace ->
  exists i, trace = [forward m i]
            /\ i < length (outputs r)
            /\ (first_match (list_ r) (compared m) i
                \/ ((compared m ∉ list_ r) /\ i = length (outputs r) - 1)).
Proof. rewrite handle_route. apply route_sent_inv. Qed.

(** X4: a handler run reaches an access outside [outputs] exactly when the
    earliest matching token has no outlet at its index, or when nothing
    matches and there is no outlet at all. *)
Theorem handle_out_of_range_iff (r : t) (m : message) :
  handle r m = OutOfRange
  <-> (exists i, first_match (list_ r) (compared m) i
                 /\ length (outputs r) <= i)
      \/ ((compared m ∉ list_ r) /\ outputs r = []).
Proof. rewrite handle_route. apply route_faults_iff. Qed.

(** X5: whatever the router's state, a handler run that ends normally has
    made exactly one send, of the message it received, on an outlet that
    exists: the outlet of the earliest matching token, or, when no token
    matches, the last outlet. *)
Theorem handle_sends_once_in_range (r : t) (m : message)
    (trace : list event) :
  handle r m = Sent trace ->
  exists i, trace = [forward m i]
            /\ i < length (outputs r)
            /\ (first_match (list_ r) (compared m) i
                \/ ((compared m ∉ list_ r) /\ i = length (outputs r) - 1)).
Proof. exact (handle_sent_inv r m trace). Qed.

(** X6: after [PARM_PARSE], with or without a clear before it and whatever
    outlets it found, every handler run on every message ends normally. *)
Theorem handle_after_parse_in_range (r : t) (m : message) :
  exists i, handle (PARM_PARSE r) m = Sent [forward m i]
            /\ i < length (outputs (PARM_PARSE r)).
Proof.
  destruct (handle (PARM_PARSE r) m) as [trace|] eqn:Hrun.
  - destruct (handle_sent_inv _ _ _ Hrun) as (i & -> & Hi & _).
    eauto.
  - exfalso. pose proof (PARM_PARSE_length r) as Hlen.
    rewrite handle_route in Hrun.
    apply route_faults_iff in Hrun as [(i & [Hi _] & Hle)|[_ Hempty]].
    + apply lookup_lt_Some in Hi. rewrite PARM_PARSE_list in Hi. lia.
    + rewrite Hempty in Hlen. cbn in Hlen. lia.
Qed.

(** X7: when the router has at least N+1 outlets (more than N+1 after a
    [PARM_PARSE] over a shortened list), an unmatched message goes to the
    last outlet, which need not be outlet N, and no message is ever sent on
    an outlet between N and the last one. *)
Theorem catch_all_is_last_outlet (r : t) (m : message) :
  length (list_ r) + 1 <= length (outputs r) ->
  (compared m ∉ list_ r ->
   handle r m = Sent [forward m (length (outputs r) - 1)])
  /\ (forall i, handle r m = Sent [forward m i] ->
                i < length (list_ r) \/ i = length (outputs r) - 1).
Proof.
  intros Hlen. split.
  - intros Hnot. rewrite handle_route, (route_none _ _ _ Hnot).
    apply send_back_in_range. lia.
  - intros i Hrun.
    destruct (handle_sent_inv _ _ _ Hrun) as (j & Hj & _ & Hcase).
    injection Hj as Hj. apply forward_inj in Hj. subst j.
    destruct Hcase as [[Hi _]|[_ ->]]; [left | right; reflexivity].
    now apply lookup_lt_Some in Hi.
Qed.

(** X8: a token that repeats an earlier token is dead: with at least N+1
    outlets, no message of any kind is ever sent on its outlet. *)
Theorem shadowed_token_never_receives (r : t) (i j : nat) (token : string)
    (m : message) (k : nat) :
  length (list_ r) + 1 <= length (outputs r) ->
  list_ r !! i = Some token -> list_ r !! j = Some token -> i < j ->
  handle r m = Sent [forward m k] -> k <> j.
Proof.
  intros Hlen Hi Hj Hij Hrun ->.
  destruct (handle_sent_inv _ _ _ Hrun) as (k & Hk & _ & Hcase).
  injection Hk as Hk. apply forward_inj in Hk. subst k.
  apply lookup_lt_Some in Hj as Hjlt.
  destruct Hcase as [[Hmatch Hfirst]|[_ Hlast]]; [|lia].
  apply (Hfirst i Hij). congruence.
Qed.

(** X10: the outlet depends on the compared string alone, not on the kind of
    the message: two messages compared through the same string (the integer
    5 and the list [5 a b], a bang and the list [bang]) are sent on the same
    outlet, or both runs go out of range. *)
Theorem same_string_same_outlet (r : t) (m1 m2 : message) :
  compared m1 = compared m2 ->
  (handle r m1 = OutOfRange /\ handle r m2 = OutOfRange)
  \/ (exists i, handle r m1 = Sent [forward m1 i]
                /\ handle r m2 = Sent [forward m2 i]).
Proof.
  intros Heq. rewrite !handle_route, <- Heq.
  destruct (route_uniform r (compared m1)) as [Hout|[i Hi]].
  - left. split; apply Hout.
  - right. exists i. split; apply Hi.
Qed.

End HandlerFacts.

Section GrowthFacts.
Import gRoute.
Context {to_string_float : ToString float}.

Lemma first_match_app (T T' : list string) (s : string) (i : nat) :
  first_match T s i -> first_match (T ++ T') s i.
Proof.
  intros [Hi Hfirst]. split; [now apply lookup_app_l_Some|].
  intros j Hj. rewrite lookup_app_l; [now apply Hfirst|].
  apply lookup_lt_Some in Hi. lia.
Qed.

(** X11: growing the token list keeps every match where it was: when tokens
    are appended to [T] and [PARM_PARSE] runs on the outlets in place, a
    message that matched a token of [T] is sent on the same outlet as
    before. *)
Theorem growth_keeps_matches (T T' : list string) (outs : list outlet)
    (m : message) :
  length T + 1 <= length outs ->
  compared m ∈ T ->
  handle (PARM_PARSE (Build (T ++ T') outs)) m = handle (Build T outs) m.
Proof.
  intros Hlen Hin. destruct (first_match_exists _ _ Hin) as [i Hi].
  pose proof (first_match_app T T' _ _ Hi) as Hi'.
  destruct Hi as [Hi Hfirst]. apply lookup_lt_Some in Hi as Hilt.
  rewrite !handle_route.
  rewrite (route_first (Build T outs) _ _ i) by (split; assumption).
  rewrite (route_first (PARM_PARSE (Build (T ++ T') outs)) _ _ i)
    by (rewrite PARM_PARSE_list; exact Hi').
  rewrite !send_at_in_range; [reflexivity | cbn; lia |].
  rewrite PARM_PARSE_length. cbn. lia.
Qed.

(** X12: growing the token list moves the catch-all: with exactly N+1
    outlets before and at least one token appended, a message that matches
    no token, old or new, was sent on outlet N and is now sent on the new
    last outlet; outlet N has become the outlet of the first new token. *)
Theorem growth_moves_catch_all (T T' : list string) (outs : list outlet)
    (m : message) :
  length outs = length T + 1 ->
  T' <> [] ->
  compared m ∉ (T ++ T')%list ->
  handle (Build T outs) m = Sent [forward m (length T)]
  /\ handle (PARM_PARSE (Build (T ++ T') outs)) m
     = Sent [forward m (length T + length T')]
  /\ length T <> length T + length T'.
Proof.
  intros Hlen Hne Hnot. repeat split.
  - rewrite handle_route, route_none; cbn.
    + rewrite send_back_in_range; cbn; [|lia]. do 3 f_equal. lia.
    + intros Hin. apply Hnot, elem_of_app. now left.
  - rewrite handle_route, route_none by (now rewrite PARM_PARSE_list).
    rewrite send_back_in_range; rewrite PARM_PARSE_length; cbn;
      rewrite length_app; [|lia].
    do 3 f_equal. lia.
  - destruct T'; [congruence | cbn; lia].
Qed.

End GrowthFacts.

Section FirstItemFacts.
Import gRoute.

Lemma until_space_no_space (value : string) :
  has_space (until_space value) = false.
Proof.
  induction value as [|c rest IH]; cbn; [reflexivity|].
  destruct (Ascii.eqb c " ") eqn:Hc; cbn; [reflexivity|].
  now rewrite Hc.
Qed.

Lemma until_space_cut (value : string) :
  (has_space value = false /\ until_space value = value)
  \/ (has_space value = true
      /\ exists rest, value = until_space value ++ String " " rest).
Proof.
  induction value as [|c rest IH]; cbn; [now left|].
  destruct (Ascii.eqb_spec c " ") as [->|Hne]; cbn.
  - right. split; [reflexivity|]. now exists rest.
  - destruct IH as [[Hno Heq]|[Hyes [rest' Heq]]].
    + left. split; [exact Hno | now rewrite Heq].
    + right. split; [exact Hyes|]. exists rest'.
      rewrite Heq at 1. reflexivity.
Qed.

Lemma first_item_shape (value : string) :
  has_space (first_item value) = false
  /\ (first_item value = value <-> has_space value = false)
  /\ (has_space value = true ->
      exists rest, value = first_item value ++ String " " rest).
Proof.
  rewrite first_item_until_space. split; [apply until_space_no_space|].
  destruct (until_space_cut value) as [[Hno Heq]|[Hyes Hrest]].
  - split; [split; auto|]. rewrite Hno. discriminate.
  - split; [|intros _; exact Hrest]. split.
    + intros Heq. rewrite <- Heq. apply until_space_no_space.
    + rewrite Hyes. discriminate.
Qed.

(** X13: the token [SetListValue] compares never holds a space; it is the
    whole payload exactly when the payload holds no space, and otherwise
    the payload is the token, one space, and a remainder. *)
Theorem first_item_cut (value : string) :
  has_space (first_item value) = false
  /\ (first_item value = value <-> has_space value = false)
  /\ (has_space value = true ->
      exists rest, value = first_item value ++ String " " rest).
Proof. exact (first_item_shape value). Qed.

(** X14: cutting undoes joining: a space-free token followed by a space and
    anything is cut back to the token, and a space-free payload is its own
    token. *)
Theorem first_item_of_joined (token rest : string) :
  has_space token = false ->
  first_item (token ++ String " " rest) = token
  /\ first_item token = token.
Proof.
  intros Hno. rewrite !first_item_until_space.
  induction token as [|c token IH]; [split; cbn; reflexivity|].
  change (String c token ++ String " " rest)
    with (String c (token ++ String " " rest)).
  cbn in Hno |- *. apply orb_false_iff in Hno as [Hc Hno]. rewrite Hc.
  destruct (IH Hno) as [Hjoined Hself]. now rewrite Hjoined, Hself.
Qed.

(** X15: the compared token is empty exactly for the empty payload and for
    a payload that starts with a space. *)
Theorem first_item_empty_iff (value : string) :
  first_item value = ""
  <-> value = "" \/ exists rest, value = String " " rest.
Proof.
  rewrite first_item_until_space. destruct value as [|c rest]; cbn.
  - split; auto.
  - destruct (Ascii.eqb_spec c " ") as [->|Hne]; split.
    + intros _. right. now exists rest.
    + reflexivity.
    + discriminate.
    + intros [H|[rest' H]]; [discriminate|]. injection H as -> _.
      now contradiction Hne.
Qed.

(** X16: a token of [T] that holds a space is dead for lists: with at least
    N+1 outlets, no list payload is ever sent on its outlet. *)
Theorem spaced_token_never_receives_list (r : t) (i : nat) (token : string)
    (value : string) (k : nat) :
  length (list_ r) + 1 <= length (outputs r) ->
  list_ r !! i = Some token -> has_space token = true ->
  SetListValue r value = Sent [SendList k value] -> k <> i.
Proof.
  intros Hlen Hi Hspace Hrun ->.
  apply lookup_lt_Some in Hi as Hilt.
  destruct (route_sent_inv r _ _ _ Hrun) as (j & Hj & _ & Hcase).
  injection Hj as <-. destruct Hcase as [[Hmatch _]|[_ Hlast]]; [|lia].
  rewrite Hi in Hmatch. injection Hmatch as ->.
  destruct (first_item_shape value) as [Hno _]. congruence.
Qed.

End FirstItemFacts.

Section FurtherWitnesses.
Import gRoute.

Lemma handle_sends_once_in_range_witness :
  let r := Build ["a"; "5"] (replicate 5 (Outlet [])) in
  @handle fixed6 r (Int 7) = Sent [SendInt 4 7]
  /\ exists i, [SendInt 4 7%Z] = [forward (Int 7) i]
               /\ i < length (outputs r)
               /\ (first_match (list_ r) (@compared fixed6 (Int 7)) i
                   \/ ((@compared fixed6 (Int 7) ∉ list_ r)
                       /\ i = length (outputs r) - 1)).
Proof.
  split; [reflexivity|].
  apply (@handle_sends_once_in_range fixed6
           (Build ["a"; "5"] (replicate 5 (Outlet []))) (Int 7)
           [SendInt 4 7%Z]).
  reflexivity.
Defined.

Lemma catch_all_is_last_outlet_witness :
  let r := Build ["a"] (replicate 4 (Outlet [])) in
  let m := List "b c" in
  length (list_ r) + 1 <= length (outputs r)
  /\ ((@compared fixed6 m ∉ list_ r ->
       @handle fixed6 r m = Sent [forward m (length (outputs r) - 1)])
      /\ (forall i, @handle fixed6 r m = Sent [forward m i] ->
                    i < length (list_ r) \/ i = length (outputs r) - 1)).
Proof.
  split; [cbn; lia|].
  apply (@catch_all_is_last_outlet fixed6
           (Build ["a"] (replicate 4 (Outlet []))) (List "b c")).
  cbn. lia.
Defined.

Lemma shadowed_token_never_receives_witness :
  let r := Build ["x"; "bang"; "bang"] (replicate 4 (Outlet [])) in
  length (list_ r) + 1 <= length (outputs r)
  /\ list_ r !! 1 = Some "bang" /\ list_ r !! 2 = Some "bang" /\ 1 < 2
  /\ @handle fixed6 r Bang = Sent [forward Bang 1]
  /\ 1 <> 2.
Proof.
  split; [cbn; lia|]. split; [reflexivity|]. split; [reflexivity|].
  split; [lia|]. split; [reflexivity|].
  apply (@shadowed_token_never_receives fixed6
           (Build ["x"; "bang"; "bang"] (replicate 4 (Outlet [])))
           1 2 "bang" Bang 1);
    [cbn; lia | reflexivity | reflexivity | lia | reflexivity].
Defined.

Lemma int_outlet_is_exclusive_witness :
  let r := Build ["12"; "-3"] (replicate 3 (Outlet [])) in
  length (list_ r) + 1 <= length (outputs r)
  /\ 1 < length (list_ r)
  /\ SetIntValue r (-3) = Sent [SendInt 1 (-3)]
  /\ (-3 = -3)%Z.
Proof.
  split; [cbn; lia|]. split; [cbn; lia|]. split; [reflexivity|].
  apply (int_outlet_is_exclusive
           (Build ["12"; "-3"] (replicate 3 (Outlet []))) (-3) (-3) 1);
    [cbn; lia | cbn; lia | reflexivity | reflexivity].
Defined.

Lemma same_string_same_outlet_witness :
  let r := Build ["bang"; "5"] (replicate 3 (Outlet [])) in
  @compared fixed6 (Int 5) = @compared fixed6 (List "5 a b")
  /\ ((@handle fixed6 r (Int 5) = OutOfRange
       /\ @handle fixed6 r (List "5 a b") = OutOfRange)
      \/ (exists i, @handle fixed6 r (Int 5) = Sent [forward (Int 5) i]
                    /\ @handle fixed6 r (List "5 a b")
                       = Sent [forward (List "5 a b") i])).
Proof.
  split; [reflexivity|].
  apply (@same_string_same_outlet fixed6
           (Build ["bang"; "5"] (replicate 3 (Outlet [])))
           (Int 5) (List "5 a b")).
  reflexivity.
Defined.

Lemma growth_keeps_matches_witness :
  let outs := [Outlet [(7, 0)]; Outlet []; Outlet [(8, 1)]] in
  length ["a"; "b"] + 1 <= length outs
  /\ @compared fixed6 (List "b x") ∈ ["a"; "b"]
  /\ @handle fixed6 (PARM_PARSE (Build (["a"; "b"] ++ ["c"]) outs))
       (List "b x")
     = @handle fixed6 (Build ["a"; "b"] outs) (List "b x").
Proof.
  assert (Hin : @compared fixed6 (List "b x") ∈ ["a"; "b"]).
  { apply elem_of_cons. right. apply elem_of_cons. now left. }
  split; [cbn; lia|]. split; [exact Hin|].
  apply (@growth_keeps_matches fixed6 ["a"; "b"] ["c"]
           [Outlet [(7, 0)]; Outlet []; Outlet [(8, 1)]] (List "b x"));
    [cbn; lia | exact Hin].
Defined.

Lemma growth_moves_catch_all_witness :
  let outs := replicate 2 (Outlet []) in
  length outs = length ["a"] + 1
  /\ ["b"; "c"] <> []
  /\ (@compared fixed6 Bang ∉ (["a"] ++ ["b"; "c"])%list)
  /\ (@handle fixed6 (Build ["a"] outs) Bang
      = Sent [forward Bang (length ["a"])]
      /\ @handle fixed6 (PARM_PARSE (Build (["a"] ++ ["b"; "c"]) outs)) Bang
         = Sent [forward Bang (length ["a"] + length ["b"; "c"])]
      /\ length ["a"] <> length ["a"] + length ["b"; "c"]).
Proof.
  assert (Hnot : @compared fixed6 Bang ∉ (["a"] ++ ["b"; "c"])%list).
  { cbn. intros Hin. repeat (apply elem_of_cons in Hin as [Hin|Hin];
      [discriminate|]). now apply elem_of_nil in Hin. }
  split; [reflexivity|]. split; [discriminate|]. split; [exact Hnot|].
  apply (@growth_moves_catch_all fixed6 ["a"] ["b"; "c"]
           (replicate 2 (Outlet [])) Bang);
    [reflexivity | discriminate | exact Hnot].
Defined.

Lemma first_item_of_joined_witness :
  has_space "note" = false
  /\ first_item ("note" ++ String " " "60 127") = "note"
  /\ first_item "note" = "note".
Proof.
  split; [reflexivity|].
  apply (first_item_of_joined "note" "60 127"). reflexivity.
Defined.

Lemma spaced_token_never_receives_list_witness :
  let r := Build ["a b"; "a"] (replicate 3 (Outlet [])) in
  length (list_ r) + 1 <= length (outputs r)
  /\ list_ r !! 0 = Some "a b" /\ has_space "a b" = true
  /\ SetListValue r "a b" = Sent [SendList 1 "a b"]
  /\ 1 <> 0.
Proof.
  split; [cbn; lia|]. split; [reflexivity|]. split; [reflexivity|].
  split; [reflexivity|].
  apply (spaced_token_never_receives_list
           (Build ["a b"; "a"] (replicate 3 (Outlet []))) 0 "a b" "a b" 1);
    [cbn; lia | reflexivity | reflexivity | reflexivity].
Defined.

End FurtherWitnesses.
